(** * BitwiseEnum: bitwise operators for scoped enumerations

    A shallow embedding of [bitwise_enum.h] and of the example program
    [example/main.cpp], followed by the properties of the operators.

    The header has two parts.  The trait [enable_bitwise_operators<E>]
    with the macro [ENABLE_BITWISE_OPERATORS] decides, while the program is
    translated, for which enumerations the operator templates take part in
    overload resolution.  The seven operator templates convert their
    operands to the underlying type of the enumeration, apply the built-in
    operator of the language and convert the result back.

    An enumeration [E] is described by its name and its underlying type
    [std::underlying_type<E>::type]; an underlying type is a signed or an
    unsigned integer type of some width.  A value of [E] is a value of the
    underlying type carrying the tag [E].  The built-in operators work on
    promoted operands, so the integral promotions and the conversion back
    to the underlying type are written out. *)

From Stdlib Require Import ZArith Lia Bool Btauto List String.
Import ListNotations.
Local Open Scope string_scope.
Local Open Scope Z_scope.

(** ** Integer types *)

(** An integer type: its width in bits and its signedness.  Signed types
    are two's complement.  These are the types [signed char], [short],
    [int], [long], [long long], their unsigned counterparts and the types
    of the same shape; [bool], whose conversion sends every non-zero number
    to [true], is not one of them. *)
Record IntType : Type := mkIntType {
  bits : positive;
  is_signed : bool
}.

Definition width (T : IntType) : Z := Z.pos (bits T).

Definition min_value (T : IntType) : Z :=
  if is_signed T then - 2 ^ (width T - 1) else 0.

Definition max_value (T : IntType) : Z :=
  if is_signed T then 2 ^ (width T - 1) - 1 else 2 ^ width T - 1.

(** The values a variable of type [T] can hold. *)
Definition in_range (T : IntType) (v : Z) : Prop :=
  min_value T <= v <= max_value T.

Definition in_rangeb (T : IntType) (v : Z) : bool :=
  (min_value T <=? v) && (v <=? max_value T).

(** Integral conversion to [T]: the unique value of [T] congruent to [v]
    modulo [2 ^ width T].  A value of [T] is kept ([convert_id]); the
    operators below convert a number outside the range only to an unsigned
    type ([builtin_or_exact] and its neighbours). *)
Definition convert (T : IntType) (v : Z) : Z :=
  if is_signed T
  then (v + 2 ^ (width T - 1)) mod 2 ^ width T - 2 ^ (width T - 1)
  else v mod 2 ^ width T.

(** ** Enumerations and their values *)

Definition type_name : Type := string.

(** An enumeration with a fixed underlying type. *)
Record Enum : Type := mkEnum {
  enum_name : type_name;
  underlying_type : IntType   (* std::underlying_type<E>::type *)
}.

(** A value of the enumeration [E].  The index keeps values of different
    enumerations, and values of the underlying type, apart. *)
Record value (E : Enum) : Type := mkValue {
  repr : Z
}.
Arguments mkValue E repr : clear implicits.
Arguments repr {E} v.

(** The values of [E] are the values of its underlying type. *)
Definition valid {E : Enum} (v : value E) : Prop :=
  in_range (underlying_type E) (repr v).

(** [static_cast<underlying_type_t>(e)] *)
Definition static_cast_underlying {E : Enum} (e : value E) : Z := repr e.

(** [static_cast<E>(v)]: the operand is converted to the underlying type
    and then to the enumeration. *)
Definition static_cast_E (E : Enum) (v : Z) : value E :=
  mkValue E (convert (underlying_type E) v).

(** [bool(e)], the explicit conversion the example uses to test a flag. *)
Definition to_bool {E : Enum} (e : value E) : bool :=
  negb (repr e =? 0).

(** The value of [E] whose underlying representation is zero. *)
Definition zero (E : Enum) : value E := mkValue E 0.

(** The value of [E] whose underlying representation has every bit set:
    [-1] for a signed underlying type, [2 ^ N - 1] for an unsigned one. *)
Definition all_bits_set (E : Enum) : value E :=
  mkValue E (if is_signed (underlying_type E)
             then -1
             else 2 ^ width (underlying_type E) - 1).

(** ** Representations

    The object representation of a value of [T]: its [width T] bits, the
    least significant first.  The bitwise operations of the specification
    act on these. *)
Definition representation (T : IntType) (v : Z) : list bool :=
  map (fun i => Z.testbit v (Z.of_nat i)) (seq 0 (Pos.to_nat (bits T))).

Fixpoint bitwise (f : bool -> bool -> bool) (l1 l2 : list bool) : list bool :=
  match l1, l2 with
  | b1 :: r1, b2 :: r2 => f b1 b2 :: bitwise f r1 r2
  | _, _ => []
  end.

Definition bitwise_or : list bool -> list bool -> list bool := bitwise orb.
Definition bitwise_and : list bool -> list bool -> list bool := bitwise andb.
Definition bitwise_xor : list bool -> list bool -> list bool := bitwise xorb.
Definition bitwise_not : list bool -> list bool := map negb.

(** ** The trait and the declared operators *)

(** The body of an instance of [enable_bitwise_operators]: its one static
    member. *)
Record trait : Type := mkTrait {
  enable : bool
}.

(** The general traits class template. *)
Definition primary_template (E : type_name) : trait := mkTrait false.

(** An explicit specialization: the type it is declared for and its
    body. *)
Definition specialization : Type := (type_name * trait)%type.

(** The macro: an explicit specialization for [enumeration] whose member
    is [true]. *)
Definition ENABLE_BITWISE_OPERATORS (enumeration : type_name) : specialization :=
  (enumeration, mkTrait true).

(** A translation unit, as far as the trait is concerned: the explicit
    specializations it declares. *)
Definition translation_unit : Type := list specialization.

Fixpoint find_specialization (tu : translation_unit) (E : type_name) : option trait :=
  match tu with
  | [] => None
  | (name, body) :: rest =>
      if String.eqb name E then Some body else find_specialization rest E
  end.

(** [enable_bitwise_operators<E>]: the explicit specialization for [E]
    when the translation unit declares one, the primary template
    otherwise. *)
Definition enable_bitwise_operators (tu : translation_unit) (E : type_name) : trait :=
  match find_specialization tu E with
  | Some body => body
  | None => primary_template E
  end.

(** The types the operator templates return. *)
Inductive cxx_type : Type :=
| type_E (E : type_name)        (* E *)
| type_E_ref (E : type_name).   (* E& *)

(** [std::enable_if<B, T>::type]: [T] when [B] holds, no type at all
    otherwise. *)
Definition enable_if (B : bool) (T : cxx_type) : option cxx_type :=
  if B then Some T else None.

(** The seven operator templates of the header. *)
Inductive operator : Type :=
| op_or | op_and | op_xor | op_not
| op_or_assign | op_and_assign | op_xor_assign.

Definition operators : list operator :=
  [op_or; op_and; op_xor; op_not; op_or_assign; op_and_assign; op_xor_assign].

(** The return type each template declares when it is instantiated at
    [E]. *)
Definition return_type (tu : translation_unit) (E : type_name) (op : operator)
  : option cxx_type :=
  match op with
  | op_or | op_and | op_xor | op_not =>
      enable_if (enable (enable_bitwise_operators tu E)) (type_E E)
  | op_or_assign | op_and_assign | op_xor_assign =>
      enable_if (enable (enable_bitwise_operators tu E)) (type_E_ref E)
  end.

(** Overload resolution for an operator applied to operands of the scoped
    enumeration [E].  A template whose return type does not exist is
    dropped from the candidates, and a scoped enumeration converts
    implicitly to no other type, so there is no other candidate: the
    expression is well formed exactly when the return type exists.  The
    answer is computed from the declarations alone. *)
Definition operator_available (tu : translation_unit) (E : type_name) (op : operator)
  : bool :=
  match return_type tu E op with
  | Some _ => true
  | None => false
  end.

(** ** Translating an expression

    What the compiler does with an operator of the header applied to
    operands of an enumeration, in a translation unit with the given
    specializations of the trait. *)

(** The two kinds of enumeration: [enum class E] and [enum E]. *)
Inductive enum_kind : Type :=
| scoped
| unscoped.

(** The translation-time errors. *)
Inductive diagnostic : Type :=
| not_enabled        (* no operator is viable for the operands *)
| duplicate_enable.  (* the trait is specialized twice for one type *)

(** The outcome of translating the expression. *)
Inductive resolution : Type :=
| resolved_template (T : cxx_type)  (* the header's operator, returning [T] *)
| resolved_builtin                  (* the operator of the language, on
                                       promoted operands; the result is an
                                       integer, not an enumeration *)
| rejected (d : diagnostic).

(** An explicit specialization may be declared once for a type; a second
    one is a redefinition. *)
Fixpoint declared_once (tu : translation_unit) : bool :=
  match tu with
  | [] => true
  | (name, _) :: rest =>
      negb (existsb (fun s => String.eqb (fst s) name) rest)
      && declared_once rest
  end.

(** The candidates the language itself supplies.  An operand of unscoped
    enumeration type converts implicitly to its promoted underlying type,
    so the built-in [|], [&], [^] and [~] are viable for it.  A scoped
    enumeration converts implicitly to nothing.  The built-in compound
    assignments compute an integer, which does not convert back to the
    enumeration on the left, so they are viable for neither. *)
Definition builtin_candidate (k : enum_kind) (op : operator) : bool :=
  match k, op with
  | unscoped, (op_or | op_and | op_xor | op_not) => true
  | _, _ => false
  end.

(** Overload resolution.  The header's template, when its return type
    exists, matches the operands exactly and is preferred to a built-in
    candidate, which needs conversions. *)
Definition resolve (tu : translation_unit) (k : enum_kind) (E : type_name)
  (op : operator) : resolution :=
  match return_type tu E op with
  | Some T => resolved_template T
  | None =>
      if builtin_candidate k op then resolved_builtin
      else rejected not_enabled
  end.

(** Translation of the declarations followed by the expression. *)
Definition translation (tu : translation_unit) (k : enum_kind) (E : type_name)
  (op : operator) : resolution :=
  if declared_once tu then resolve tu k E op
  else rejected duplicate_enable.


(** ** Variables *)

(** A reference to a variable, and the variables of type [E] of a
    program. *)
Definition ref : Type := string.

Definition store (E : Enum) : Type := ref -> value E.

Definition assign {E : Enum} (st : store E) (x : ref) (v : value E) : store E :=
  fun y => if String.eqb y x then v else st y.

Section Target.

(** The width of [int] on the target. *)
Variable int_bits : positive.

Definition int_type : IntType := mkIntType int_bits true.

(** Integral promotion: a type narrower than [int] is promoted to [int],
    which represents all its values.  A type at least as wide as [int] is
    either not promoted or promoted to a type of its own width and
    signedness, so it is left as it is. *)
Definition promote (T : IntType) : IntType :=
  if (width T <? width int_type) then int_type else T.

(** The built-in operators on two operands of type [T]: both operands are
    promoted, the operation is carried out on the bits of the promoted
    type, and the result has the promoted type. *)
Definition builtin_or (T : IntType) (a b : Z) : Z :=
  let P := promote T in convert P (Z.lor (convert P a) (convert P b)).

Definition builtin_and (T : IntType) (a b : Z) : Z :=
  let P := promote T in convert P (Z.land (convert P a) (convert P b)).

Definition builtin_xor (T : IntType) (a b : Z) : Z :=
  let P := promote T in convert P (Z.lxor (convert P a) (convert P b)).

Definition builtin_not (T : IntType) (a : Z) : Z :=
  let P := promote T in convert P (Z.lnot (convert P a)).


(** ** The operators *)

Section Operators.

Variable E : Enum.

(** Bitwise OR *)
Definition operator_or (lhs rhs : value E) : value E :=
  let underlying_type_t := underlying_type E in
  static_cast_E E
    (builtin_or underlying_type_t
       (static_cast_underlying lhs) (static_cast_underlying rhs)).

(** Bitwise AND *)
Definition operator_and (lhs rhs : value E) : value E :=
  let underlying_type_t := underlying_type E in
  static_cast_E E
    (builtin_and underlying_type_t
       (static_cast_underlying lhs) (static_cast_underlying rhs)).

(** Bitwise XOR *)
Definition operator_xor (lhs rhs : value E) : value E :=
  let underlying_type_t := underlying_type E in
  static_cast_E E
    (builtin_xor underlying_type_t
       (static_cast_underlying lhs) (static_cast_underlying rhs)).

(** Bitwise NOT *)
Definition operator_not (lhs : value E) : value E :=
  let underlying_type_t := underlying_type E in
  static_cast_E E
    (builtin_not underlying_type_t (static_cast_underlying lhs)).

(** The compound assignments take their left operand by reference: they
    run in the store of the caller, write the variable [lhs] refers to and
    return the reference they were given. *)

(** Bitwise OR - compound assignment *)
Definition operator_or_assign (st : store E) (lhs : ref) (rhs : value E)
  : store E * ref :=
  let underlying_type_t := underlying_type E in
  let st := assign st lhs
    (static_cast_E E
       (builtin_or underlying_type_t
          (static_cast_underlying (st lhs)) (static_cast_underlying rhs))) in
  (st, lhs).

(** Bitwise AND - compound assignment *)
Definition operator_and_assign (st : store E) (lhs : ref) (rhs : value E)
  : store E * ref :=
  let underlying_type_t := underlying_type E in
  let st := assign st lhs
    (static_cast_E E
       (builtin_and underlying_type_t
          (static_cast_underlying (st lhs)) (static_cast_underlying rhs))) in
  (st, lhs).

(** Bitwise XOR - compound assignment *)
Definition operator_xor_assign (st : store E) (lhs : ref) (rhs : value E)
  : store E * ref :=
  let underlying_type_t := underlying_type E in
  let st := assign st lhs
    (static_cast_E E
       (builtin_xor underlying_type_t
          (static_cast_underlying (st lhs)) (static_cast_underlying rhs))) in
  (st, lhs).

(** *** Calls on variables *)

(** A call of an operator that takes its operands by value, on operands
    that are variables of the caller: the parameters are initialised with
    copies of the variables and the body never sees the store. *)
Definition call_binary (f : value E -> value E -> value E)
  (st : store E) (a b : ref) : store E * value E :=
  let lhs := st a in
  let rhs := st b in
  (st, f lhs rhs).

Definition call_unary (f : value E -> value E)
  (st : store E) (a : ref) : store E * value E :=
  let lhs := st a in
  (st, f lhs).

(** A compound assignment [a op= b] on two variables: the right operand is
    copied, the left one is passed by reference. *)
Definition call_assign (f : store E -> ref -> value E -> store E * ref)
  (st : store E) (a b : ref) : store E * ref :=
  let rhs := st b in
  f st a rhs.

End Operators.

(** ** The example program *)

Definition Alignment : Enum := mkEnum "Widget::Alignment" int_type.

Definition none : value Alignment := mkValue Alignment 0.
Definition top : value Alignment := mkValue Alignment 1.
Definition bottom : value Alignment := mkValue Alignment 2.
Definition left : value Alignment := mkValue Alignment 4.
Definition right : value Alignment := mkValue Alignment 8.

(** The declarations of the example: one use of the macro. *)
Definition main_tu : translation_unit :=
  [ENABLE_BITWISE_OPERATORS "Widget::Alignment"].

Definition endl : string := String (Ascii.ascii_of_N 10) EmptyString.

(** The variable [align] after the two compound assignments of [main]. *)
Definition main_align : value Alignment :=
  let st := assign (fun _ => none) "align" none in
  let '(st, _) := operator_or_assign Alignment st "align" top in
  let '(st, _) := operator_or_assign Alignment st "align" left in
  st "align".

(** [main], as the text it writes to the standard output. *)
Definition main : list string :=
  let align := main_align in
  (if to_bool (operator_and Alignment align top)
   then [String.append "Aligning top ..." endl] else [])
  ++ (if to_bool (operator_and Alignment align bottom)
      then [String.append "Aligning bottom ..." endl] else [])
  ++ (if to_bool (operator_and Alignment align left)
      then [String.append "Aligning left ..." endl] else [])
  ++ (if to_bool (operator_and Alignment align right)
      then [String.append "Aligning right ..." endl] else []).

(** An enumeration whose underlying type is narrower than [int], where
    the operators work on promoted operands. *)
Definition Flags8 : Enum := mkEnum "Flags8" (mkIntType 8 false).

(** Every variable of the store holds a value of [E]. *)
Definition store_valid {E : Enum} (st : store E) : Prop :=
  forall x : ref, valid (st x).

(** * Properties *)

(** ** Integral conversion *)

Lemma pow2_width_pos (T : IntType) : 0 < 2 ^ width T.
Proof. apply Z.pow_pos_nonneg; unfold width; lia. Qed.

Lemma pow2_width_half (T : IntType) : 2 ^ width T = 2 * 2 ^ (width T - 1).
Proof.
  rewrite <- Z.pow_succ_r by (unfold width; lia).
  f_equal. lia.
Qed.

Lemma in_rangeb_spec (T : IntType) (v : Z) : in_rangeb T v = true <-> in_range T v.
Proof.
  unfold in_rangeb, in_range.
  rewrite andb_true_iff, !Z.leb_le. reflexivity.
Qed.

(** A conversion always lands in the destination type. *)
Lemma convert_in_range (T : IntType) (v : Z) : in_range T (convert T v).
Proof.
  pose proof (pow2_width_pos T) as Hpos.
  pose proof (pow2_width_half T) as Hhalf.
  unfold in_range, min_value, max_value, convert.
  destruct (is_signed T).
  - pose proof (Z.mod_pos_bound (v + 2 ^ (width T - 1)) (2 ^ width T) Hpos). lia.
  - pose proof (Z.mod_pos_bound v (2 ^ width T) Hpos). lia.
Qed.

(** A conversion keeps the values of the destination type. *)
Lemma convert_id (T : IntType) (v : Z) : in_range T v -> convert T v = v.
Proof.
  pose proof (pow2_width_half T) as Hhalf.
  unfold in_range, min_value, max_value, convert.
  destruct (is_signed T); intros Hv.
  - rewrite Z.mod_small by lia. lia.
  - apply Z.mod_small. lia.
Qed.

Lemma convert_mod (T : IntType) (v : Z) :
  convert T v mod 2 ^ width T = v mod 2 ^ width T.
Proof.
  pose proof (pow2_width_pos T) as Hpos.
  unfold convert. destruct (is_signed T).
  - rewrite Zminus_mod_idemp_l. f_equal. lia.
  - apply Z.mod_mod. lia.
Qed.

(** A conversion keeps the low [width T] bits. *)
Lemma convert_testbit (T : IntType) (v i : Z) :
  0 <= i < width T -> Z.testbit (convert T v) i = Z.testbit v i.
Proof.
  intros Hi.
  rewrite <- (Z.mod_pow2_bits_low (convert T v) (width T) i) by lia.
  rewrite convert_mod.
  apply Z.mod_pow2_bits_low. lia.
Qed.

Lemma mod_pow2_ext (n a b : Z) :
  0 <= n ->
  (forall i, 0 <= i < n -> Z.testbit a i = Z.testbit b i) ->
  a mod 2 ^ n = b mod 2 ^ n.
Proof.
  intros Hn Hbits.
  apply Z.bits_inj'. intros i Hi.
  destruct (Z_lt_ge_dec i n) as [Hlt | Hge].
  - rewrite !Z.mod_pow2_bits_low by lia. apply Hbits. lia.
  - rewrite !Z.mod_pow2_bits_high by lia. reflexivity.
Qed.

(** The result of a conversion depends on the low [width T] bits only. *)
Lemma convert_ext (T : IntType) (a b : Z) :
  (forall i, 0 <= i < width T -> Z.testbit a i = Z.testbit b i) ->
  convert T a = convert T b.
Proof.
  intros Hbits.
  assert (Hmod : a mod 2 ^ width T = b mod 2 ^ width T).
  { apply mod_pow2_ext; [unfold width; lia | exact Hbits]. }
  unfold convert. destruct (is_signed T).
  - rewrite (Zplus_mod a), (Zplus_mod b), Hmod. reflexivity.
  - exact Hmod.
Qed.

(** Two values of [T] with the same low [width T] bits are equal. *)
Lemma in_range_ext (T : IntType) (a b : Z) :
  in_range T a -> in_range T b ->
  (forall i, 0 <= i < width T -> Z.testbit a i = Z.testbit b i) ->
  a = b.
Proof.
  intros Ha Hb Hbits.
  rewrite <- (convert_id T a Ha), <- (convert_id T b Hb).
  apply convert_ext, Hbits.
Qed.

(** *** The bits above the width *)

Lemma testbit_neg_small (n v : Z) :
  0 <= n -> - 2 ^ n <= v < 0 -> Z.testbit v n = true.
Proof.
  intros Hn Hv.
  apply Z.testbit_true; [exact Hn |].
  assert (Hpos : 0 < 2 ^ n) by (apply Z.pow_pos_nonneg; lia).
  replace (v / 2 ^ n) with (-1); [reflexivity |].
  apply Z.div_unique with (r := v + 2 ^ n); lia.
Qed.

Lemma testbit_small (n v : Z) :
  0 <= n -> 0 <= v < 2 ^ n -> Z.testbit v n = false.
Proof.
  intros Hn Hv.
  apply Z.testbit_false; [exact Hn |].
  rewrite Z.div_small by lia. reflexivity.
Qed.

Lemma testbit_sign_extended (n v i : Z) :
  0 <= n <= i -> - 2 ^ n <= v < 2 ^ n -> Z.testbit v i = Z.testbit v n.
Proof.
  intros Hn Hv.
  assert (Hle : 2 ^ n <= 2 ^ i) by (apply Z.pow_le_mono_r; lia).
  destruct (Z_lt_ge_dec v 0).
  - rewrite !testbit_neg_small by lia. reflexivity.
  - rewrite !testbit_small by lia. reflexivity.
Qed.

(** Above the width, the bits of a value of [T] repeat the sign bit when
    [T] is signed and are clear when it is unsigned. *)
Lemma in_range_testbit_high (T : IntType) (v i : Z) :
  in_range T v -> width T <= i ->
  Z.testbit v i = is_signed T && Z.testbit v (width T - 1).
Proof.
  pose proof (pow2_width_half T) as Hhalf.
  unfold in_range, min_value, max_value.
  destruct (is_signed T); cbn [andb]; intros Hv Hi.
  - apply testbit_sign_extended; unfold width in *; lia.
  - assert (Hle : 2 ^ width T <= 2 ^ i)
      by (apply Z.pow_le_mono_r; unfold width in *; lia).
    apply testbit_small; unfold width in *; lia.
Qed.

(** Conversely, a number whose high bits have that form is a value of
    [T]. *)
Lemma in_range_of_testbit_high (T : IntType) (v : Z) :
  (forall i, width T <= i ->
     Z.testbit v i = is_signed T && Z.testbit v (width T - 1)) ->
  in_range T v.
Proof.
  intros Hhigh.
  assert (Heq : convert T v = v).
  { apply Z.bits_inj'. intros i Hi.
    destruct (Z_lt_ge_dec i (width T)) as [Hlt | Hge].
    - apply convert_testbit. lia.
    - rewrite (in_range_testbit_high T (convert T v) i)
        by (apply convert_in_range || lia).
      rewrite convert_testbit by (unfold width; lia).
      symmetry. apply Hhigh. lia. }
  rewrite <- Heq. apply convert_in_range.
Qed.

(** The values of [T] are closed under the bitwise operations of [Z]. *)
Lemma lor_in_range (T : IntType) (a b : Z) :
  in_range T a -> in_range T b -> in_range T (Z.lor a b).
Proof.
  intros Ha Hb. apply in_range_of_testbit_high. intros i Hi.
  rewrite !Z.lor_spec.
  rewrite (in_range_testbit_high T a i Ha Hi), (in_range_testbit_high T b i Hb Hi).
  destruct (is_signed T); reflexivity.
Qed.

Lemma land_in_range (T : IntType) (a b : Z) :
  in_range T a -> in_range T b -> in_range T (Z.land a b).
Proof.
  intros Ha Hb. apply in_range_of_testbit_high. intros i Hi.
  rewrite !Z.land_spec.
  rewrite (in_range_testbit_high T a i Ha Hi), (in_range_testbit_high T b i Hb Hi).
  destruct (is_signed T); reflexivity.
Qed.

Lemma lxor_in_range (T : IntType) (a b : Z) :
  in_range T a -> in_range T b -> in_range T (Z.lxor a b).
Proof.
  intros Ha Hb. apply in_range_of_testbit_high. intros i Hi.
  rewrite !Z.lxor_spec.
  rewrite (in_range_testbit_high T a i Ha Hi), (in_range_testbit_high T b i Hb Hi).
  destruct (is_signed T); reflexivity.
Qed.

Lemma lnot_in_range (T : IntType) (a : Z) :
  is_signed T = true -> in_range T a -> in_range T (Z.lnot a).
Proof.
  unfold in_range, min_value, max_value, Z.lnot.
  intros ->. lia.
Qed.

(** ** Promotion and the built-in operators *)

Lemma promote_width (T : IntType) : width T <= width (promote T).
Proof.
  unfold promote.
  destruct (Z.ltb_spec (width T) (width int_type)); lia.
Qed.

(** Promotion keeps the value. *)
Lemma promote_in_range (T : IntType) (v : Z) :
  in_range T v -> in_range (promote T) v.
Proof.
  unfold promote.
  destruct (Z.ltb_spec (width T) (width int_type)) as [Hlt | Hge]; [|tauto].
  unfold in_range, min_value, max_value. cbn [is_signed int_type].
  assert (Hle : 2 ^ width T <= 2 ^ (width int_type - 1)).
  { apply Z.pow_le_mono_r; lia. }
  pose proof (pow2_width_half T) as Hhalf.
  pose proof (pow2_width_pos T) as Hpos.
  destruct (is_signed T); lia.
Qed.

Lemma convert_promote (T : IntType) (v : Z) :
  in_range T v -> convert (promote T) v = v.
Proof. intros Hv. apply convert_id, promote_in_range, Hv. Qed.

Section BuiltinBits.

Variables (T : IntType) (a b i : Z).
Hypothesis Hi : 0 <= i < width T.

Let Hi' : 0 <= i < width (promote T).
Proof. pose proof (promote_width T). lia. Qed.

Lemma builtin_or_testbit :
  Z.testbit (builtin_or T a b) i = Z.testbit a i || Z.testbit b i.
Proof.
  unfold builtin_or. cbv zeta.
  rewrite convert_testbit, Z.lor_spec, !convert_testbit by exact Hi'.
  reflexivity.
Qed.

Lemma builtin_and_testbit :
  Z.testbit (builtin_and T a b) i = Z.testbit a i && Z.testbit b i.
Proof.
  unfold builtin_and. cbv zeta.
  rewrite convert_testbit, Z.land_spec, !convert_testbit by exact Hi'.
  reflexivity.
Qed.

Lemma builtin_xor_testbit :
  Z.testbit (builtin_xor T a b) i = xorb (Z.testbit a i) (Z.testbit b i).
Proof.
  unfold builtin_xor. cbv zeta.
  rewrite convert_testbit, Z.lxor_spec, !convert_testbit by exact Hi'.
  reflexivity.
Qed.

Lemma builtin_not_testbit :
  Z.testbit (builtin_not T a) i = negb (Z.testbit a i).
Proof.
  unfold builtin_not. cbv zeta.
  rewrite convert_testbit, Z.lnot_spec, !convert_testbit by (exact Hi' || lia).
  reflexivity.
Qed.

End BuiltinBits.

(** On values of [T] the built-in operators are the operations of [Z] on
    two's complement numbers: the promotions keep the operands, and the
    result is again a value of [T], so that converting it back to [T]
    changes nothing. *)
Section BuiltinExact.

Variables (T : IntType) (a b : Z).
Hypotheses (Ha : in_range T a) (Hb : in_range T b).

Lemma builtin_or_exact : builtin_or T a b = Z.lor a b.
Proof.
  unfold builtin_or. cbv zeta.
  rewrite (convert_promote T a Ha), (convert_promote T b Hb).
  apply convert_id, lor_in_range; apply promote_in_range; assumption.
Qed.

Lemma builtin_and_exact : builtin_and T a b = Z.land a b.
Proof.
  unfold builtin_and. cbv zeta.
  rewrite (convert_promote T a Ha), (convert_promote T b Hb).
  apply convert_id, land_in_range; apply promote_in_range; assumption.
Qed.

Lemma builtin_xor_exact : builtin_xor T a b = Z.lxor a b.
Proof.
  unfold builtin_xor. cbv zeta.
  rewrite (convert_promote T a Ha), (convert_promote T b Hb).
  apply convert_id, lxor_in_range; apply promote_in_range; assumption.
Qed.

(** The complement of an operand that is signed once promoted. *)
Lemma builtin_not_exact :
  is_signed (promote T) = true -> builtin_not T a = Z.lnot a.
Proof.
  intros Hs. unfold builtin_not. cbv zeta.
  rewrite (convert_promote T a Ha).
  apply convert_id, lnot_in_range; [exact Hs |].
  apply promote_in_range; assumption.
Qed.

End BuiltinExact.

(** ** Representations *)

Lemma bitwise_map {A : Type} (f : bool -> bool -> bool) (g h : A -> bool) (l : list A) :
  bitwise f (map g l) (map h l) = map (fun i => f (g i) (h i)) l.
Proof.
  induction l as [| i l IH]; cbn; [reflexivity | now rewrite IH].
Qed.

Lemma in_bit_positions (T : IntType) (n : nat) :
  In n (seq 0 (Pos.to_nat (bits T))) <-> 0 <= Z.of_nat n < width T.
Proof. rewrite in_seq. unfold width. lia. Qed.

(** Two numbers have the same representation in [T] exactly when their
    low [width T] bits agree. *)
Lemma representation_eq_iff (T : IntType) (a b : Z) :
  representation T a = representation T b <->
  (forall i, 0 <= i < width T -> Z.testbit a i = Z.testbit b i).
Proof.
  unfold representation. rewrite map_ext_in_iff. split.
  - intros H i Hi.
    specialize (H (Z.to_nat i)).
    rewrite Z2Nat.id in H by lia.
    apply H, in_bit_positions. lia.
  - intros H n Hn. apply H, in_bit_positions, Hn.
Qed.

(** A value of [T] is determined by its representation. *)
Lemma representation_inj (T : IntType) (a b : Z) :
  in_range T a -> in_range T b ->
  representation T a = representation T b -> a = b.
Proof.
  intros Ha Hb Hrep.
  apply (in_range_ext T); [assumption .. |].
  apply representation_eq_iff, Hrep.
Qed.

Lemma representation_map (T : IntType) (v : Z) (f : Z -> bool) :
  (forall i, 0 <= i < width T -> Z.testbit v i = f i) ->
  representation T v =
  map (fun i => f (Z.of_nat i)) (seq 0 (Pos.to_nat (bits T))).
Proof.
  intros H. unfold representation.
  apply map_ext_in. intros n Hn. apply H, in_bit_positions, Hn.
Qed.

(** ** The operators on values *)

Section Laws.

Variable E : Enum.

Let U : IntType := underlying_type E.

Lemma static_cast_E_valid (v : Z) : valid (static_cast_E E v).
Proof. apply convert_in_range. Qed.

Lemma operator_or_valid (x y : value E) : valid (operator_or E x y).
Proof. apply static_cast_E_valid. Qed.

Lemma operator_and_valid (x y : value E) : valid (operator_and E x y).
Proof. apply static_cast_E_valid. Qed.

Lemma operator_xor_valid (x y : value E) : valid (operator_xor E x y).
Proof. apply static_cast_E_valid. Qed.

Lemma operator_not_valid (x : value E) : valid (operator_not E x).
Proof. apply static_cast_E_valid. Qed.

Lemma zero_valid : valid (zero E).
Proof.
  unfold valid, in_range, min_value, max_value. cbn [repr zero].
  pose proof (pow2_width_pos (underlying_type E)).
  pose proof (pow2_width_half (underlying_type E)).
  destruct (is_signed (underlying_type E)); lia.
Qed.

Lemma all_bits_set_valid : valid (all_bits_set E).
Proof.
  unfold valid, in_range, min_value, max_value. cbn [repr all_bits_set].
  pose proof (pow2_width_pos (underlying_type E)).
  pose proof (pow2_width_half (underlying_type E)).
  destruct (is_signed (underlying_type E)); lia.
Qed.

(** Two values of [E] whose underlying bits agree are the same value. *)
Lemma value_ext (x y : value E) :
  valid x -> valid y ->
  (forall i, 0 <= i < width U -> Z.testbit (repr x) i = Z.testbit (repr y) i) ->
  x = y.
Proof.
  destruct x as [a], y as [b]. unfold valid. cbn [repr].
  intros Ha Hb Hbits. f_equal. exact (in_range_ext _ a b Ha Hb Hbits).
Qed.

Section Bits.

Variables (x y : value E) (i : Z).
Hypothesis Hi : 0 <= i < width U.

Lemma operator_or_testbit :
  Z.testbit (repr (operator_or E x y)) i
  = Z.testbit (repr x) i || Z.testbit (repr y) i.
Proof.
  unfold operator_or, static_cast_E, static_cast_underlying. cbn [repr].
  rewrite convert_testbit by exact Hi. apply builtin_or_testbit, Hi.
Qed.

Lemma operator_and_testbit :
  Z.testbit (repr (operator_and E x y)) i
  = Z.testbit (repr x) i && Z.testbit (repr y) i.
Proof.
  unfold operator_and, static_cast_E, static_cast_underlying. cbn [repr].
  rewrite convert_testbit by exact Hi. apply builtin_and_testbit, Hi.
Qed.

Lemma operator_xor_testbit :
  Z.testbit (repr (operator_xor E x y)) i
  = xorb (Z.testbit (repr x) i) (Z.testbit (repr y) i).
Proof.
  unfold operator_xor, static_cast_E, static_cast_underlying. cbn [repr].
  rewrite convert_testbit by exact Hi. apply builtin_xor_testbit, Hi.
Qed.

Lemma operator_not_testbit :
  Z.testbit (repr (operator_not E x)) i = negb (Z.testbit (repr x) i).
Proof.
  unfold operator_not, static_cast_E, static_cast_underlying. cbn [repr].
  rewrite convert_testbit by exact Hi. apply builtin_not_testbit, Hi.
Qed.

Lemma zero_testbit : Z.testbit (repr (zero E)) i = false.
Proof. apply Z.bits_0. Qed.

Lemma all_bits_set_testbit : Z.testbit (repr (all_bits_set E)) i = true.
Proof.
  cbn [repr all_bits_set]. fold U. destruct (is_signed U).
  - apply Z.bits_m1. lia.
  - replace (2 ^ width U - 1) with (Z.ones (width U))
      by (rewrite Z.ones_equiv; lia).
    apply Z.ones_spec_low, Hi.
Qed.

End Bits.

(** The operators in closed form, on values of [E]. *)
Section ClosedForms.

Variables x y : value E.
Hypotheses (Hx : valid x) (Hy : valid y).

Lemma operator_or_repr :
  repr (operator_or E x y) = Z.lor (repr x) (repr y).
Proof.
  unfold operator_or, static_cast_E, static_cast_underlying. cbn [repr].
  rewrite builtin_or_exact by assumption.
  apply convert_id, lor_in_range; assumption.
Qed.

Lemma operator_and_repr :
  repr (operator_and E x y) = Z.land (repr x) (repr y).
Proof.
  unfold operator_and, static_cast_E, static_cast_underlying. cbn [repr].
  rewrite builtin_and_exact by assumption.
  apply convert_id, land_in_range; assumption.
Qed.

Lemma operator_xor_repr :
  repr (operator_xor E x y) = Z.lxor (repr x) (repr y).
Proof.
  unfold operator_xor, static_cast_E, static_cast_underlying. cbn [repr].
  rewrite builtin_xor_exact by assumption.
  apply convert_id, lxor_in_range; assumption.
Qed.

Lemma operator_not_repr :
  repr (operator_not E x)
  = if is_signed U then Z.lnot (repr x) else max_value U - repr x.
Proof.
  assert (Hnot : repr (operator_not E x) = convert U (Z.lnot (repr x))).
  { unfold operator_not, static_cast_E, static_cast_underlying. cbn [repr].
    apply convert_ext. intros i Hi.
    rewrite builtin_not_testbit by exact Hi.
    rewrite Z.lnot_spec by lia. reflexivity. }
  rewrite Hnot. clear Hnot.
  pose proof (pow2_width_pos U) as Hpos.
  unfold valid in Hx. fold U in Hx.
  destruct (is_signed U) eqn:Hs.
  - apply convert_id, lnot_in_range; assumption.
  - unfold convert, max_value. rewrite Hs.
    unfold in_range, min_value, max_value in Hx. rewrite Hs in Hx.
    unfold Z.lnot. symmetry.
    apply Z.mod_unique with (q := -1); lia.
Qed.

End ClosedForms.

End Laws.

Create HintDb enum_valid.
Create Rewrite HintDb enum_bits.

#[local] Hint Resolve operator_or_valid operator_and_valid operator_xor_valid
  operator_not_valid zero_valid all_bits_set_valid : enum_valid.

#[local] Hint Rewrite operator_or_testbit operator_and_testbit
  operator_xor_testbit operator_not_testbit zero_testbit all_bits_set_testbit
  using assumption : enum_bits.

(** Equality of two values of an enumeration, bit by bit. *)
Ltac enum_ext :=
  apply value_ext;
  [ auto with enum_valid
  | auto with enum_valid
  | let i := fresh "i" in
    let Hi := fresh "Hi" in
    intros i Hi; autorewrite with enum_bits; try btauto ].

(** Equality of two representations, bit by bit. *)
Ltac repr_ext :=
  unfold bitwise_or, bitwise_and, bitwise_xor, bitwise_not, representation;
  rewrite ?bitwise_map, ?map_map;
  apply map_ext_in;
  let n := fresh "n" in
  let Hn := fresh "Hn" in
  intros n Hn; apply in_bit_positions in Hn;
  autorewrite with enum_bits; reflexivity.

(** ** What the operators compute *)

(** C1. For all values [x], [y] of an enumeration [E] with underlying type
    [U], each of [x | y], [x & y], [x ^ y] is the value of [E] whose
    representation in [U] is the bitwise OR, AND, XOR of the
    representations of [x] and [y], and [~x] is the value of [E] whose
    representation is the bitwise NOT of the representation of [x].  The
    results have the type of the enumeration and lie in the range of [U]. *)
Theorem operators_act_on_representations (E : Enum) (x y : value E) :
  let U := underlying_type E in
  let bits_of (v : value E) := representation U (static_cast_underlying v) in
  (valid (operator_or E x y)
   /\ bits_of (operator_or E x y) = bitwise_or (bits_of x) (bits_of y))
  /\ (valid (operator_and E x y)
      /\ bits_of (operator_and E x y) = bitwise_and (bits_of x) (bits_of y))
  /\ (valid (operator_xor E x y)
      /\ bits_of (operator_xor E x y) = bitwise_xor (bits_of x) (bits_of y))
  /\ (valid (operator_not E x)
      /\ bits_of (operator_not E x) = bitwise_not (bits_of x)).
Proof.
  cbv zeta. unfold static_cast_underlying.
  split; [| split; [| split]];
    (split; [auto with enum_valid | repr_ext]).
Qed.

(** ** Compound assignments *)

(** C3. After [a |= b] the variable [a] holds what [a | b] gives on the
    value [a] had before, likewise for [&=] with [&] and [^=] with [^];
    each compound assignment returns the reference to its left operand. *)
Theorem compound_assignment_equivalence
  (E : Enum) (st : store E) (a : ref) (b : value E) :
  (snd (operator_or_assign E st a b) = a
   /\ fst (operator_or_assign E st a b) a = operator_or E (st a) b)
  /\ (snd (operator_and_assign E st a b) = a
      /\ fst (operator_and_assign E st a b) a = operator_and E (st a) b)
  /\ (snd (operator_xor_assign E st a b) = a
      /\ fst (operator_xor_assign E st a b) a = operator_xor E (st a) b).
Proof.
  unfold operator_or_assign, operator_and_assign, operator_xor_assign, assign.
  cbn [fst snd]. rewrite String.eqb_refl.
  repeat split.
Qed.

(** ** Algebraic laws *)

(** C4. The operators [|], [&], [^] are commutative and associative. *)
Theorem binary_operators_comm_assoc (E : Enum) (x y z : value E) :
  (operator_or E x y = operator_or E y x
   /\ operator_and E x y = operator_and E y x
   /\ operator_xor E x y = operator_xor E y x)
  /\ (operator_or E (operator_or E x y) z = operator_or E x (operator_or E y z)
      /\ operator_and E (operator_and E x y) z
         = operator_and E x (operator_and E y z)
      /\ operator_xor E (operator_xor E x y) z
         = operator_xor E x (operator_xor E y z)).
Proof.
  repeat split; enum_ext.
Qed.

(** C5. [x | x == x], [x & x == x] and [x ^ x == zero(E)]. *)
Theorem idempotence_and_self_inverse (E : Enum) (x : value E) :
  valid x ->
  operator_or E x x = x
  /\ operator_and E x x = x
  /\ operator_xor E x x = zero E.
Proof.
  intros Hx. repeat split; enum_ext.
Qed.

(** C6. [~~x == x], [~(x | y) == (~x) & (~y)] and
    [~(x & y) == (~x) | (~y)]. *)
Theorem complement_involution_de_morgan (E : Enum) (x y : value E) :
  valid x ->
  operator_not E (operator_not E x) = x
  /\ operator_not E (operator_or E x y)
     = operator_and E (operator_not E x) (operator_not E y)
  /\ operator_not E (operator_and E x y)
     = operator_or E (operator_not E x) (operator_not E y).
Proof.
  intros Hx. repeat split; enum_ext.
Qed.

(** C10. [zero(E)] is an identity of [|] and [^] and absorbs under [&]. *)
Theorem zero_identity_and_absorbing (E : Enum) (x : value E) :
  valid x ->
  operator_or E x (zero E) = x
  /\ operator_xor E x (zero E) = x
  /\ operator_and E x (zero E) = zero E.
Proof.
  intros Hx. repeat split; enum_ext.
Qed.

(** ** Width of the underlying type *)

Lemma representation_all_true (T : IntType) (v : Z) :
  (forall i, 0 <= i < width T -> Z.testbit v i = true) ->
  representation T v = repeat true (Pos.to_nat (bits T)).
Proof.
  intros H.
  rewrite (representation_map T v (fun _ => true) H).
  rewrite map_const, length_seq. reflexivity.
Qed.

(** C7. When the underlying type [U] has [N] bits, [~zero(E)] is the value
    of [E] whose representation has all [N] bits set, that is [-1] when [U]
    is signed and [2 ^ N - 1] when it is unsigned; and the result of every
    operator, and the value every compound assignment stores, is a value
    of [U]. *)
Theorem complement_of_zero_and_width (E : Enum) :
  let U := underlying_type E in
  let N := Pos.to_nat (bits U) in
  (operator_not E (zero E) = all_bits_set E
   /\ representation U (repr (operator_not E (zero E))) = repeat true N
   /\ repr (operator_not E (zero E))
      = if is_signed U then -1 else 2 ^ Z.of_nat N - 1)
  /\ (forall x y : value E,
        in_range U (repr (operator_or E x y))
        /\ in_range U (repr (operator_and E x y))
        /\ in_range U (repr (operator_xor E x y))
        /\ in_range U (repr (operator_not E x)))
  /\ (forall (st : store E) (a : ref) (b : value E),
        in_range U (repr (fst (operator_or_assign E st a b) a))
        /\ in_range U (repr (fst (operator_and_assign E st a b) a))
        /\ in_range U (repr (fst (operator_xor_assign E st a b) a))).
Proof.
  cbv zeta.
  assert (Hnot : operator_not E (zero E) = all_bits_set E) by enum_ext.
  split; [split; [exact Hnot | split] | split].
  - apply representation_all_true. intros i Hi.
    rewrite Hnot. apply all_bits_set_testbit, Hi.
  - rewrite Hnot. cbn [repr all_bits_set]. unfold width.
    rewrite positive_nat_Z. reflexivity.
  - intros x y. repeat apply conj; apply convert_in_range.
  - intros st a b.
    unfold operator_or_assign, operator_and_assign, operator_xor_assign, assign.
    cbn [fst]. rewrite String.eqb_refl.
    repeat apply conj; apply convert_in_range.
Qed.

(** ** Frame *)

(** C9. The operators [|], [&], [^] and [~] take their operands by value
    and leave the variables they are applied to as they were; a compound
    assignment changes the variable on its left and no other, so the
    variable on its right keeps its value. *)
Theorem operators_frame (E : Enum) (st : store E) (a b : ref) :
  (fst (call_binary E (operator_or E) st a b) = st
   /\ fst (call_binary E (operator_and E) st a b) = st
   /\ fst (call_binary E (operator_xor E) st a b) = st
   /\ fst (call_unary E (operator_not E) st a) = st)
  /\ (forall c : ref, c <> a ->
        fst (call_assign E (operator_or_assign E) st a b) c = st c
        /\ fst (call_assign E (operator_and_assign E) st a b) c = st c
        /\ fst (call_assign E (operator_xor_assign E) st a b) c = st c).
Proof.
  split.
  - repeat split.
  - intros c Hc.
    unfold call_assign, operator_or_assign, operator_and_assign,
      operator_xor_assign, assign.
    cbn [fst].
    apply String.eqb_neq in Hc. rewrite Hc.
    repeat split.
Qed.

(** ** Further laws of the operators *)

(** From an equation between values to their bits. *)
Lemma operator_and_zero_bits (E : Enum) (f g : value E) (i : Z) :
  operator_and E f g = zero E ->
  0 <= i < width (underlying_type E) ->
  Z.testbit (repr f) i && Z.testbit (repr g) i = false.
Proof.
  intros Hfg Hi.
  rewrite <- (operator_and_testbit E f g i Hi), Hfg.
  apply Z.bits_0.
Qed.

(** [&] distributes over [|] and over [^], and [|] distributes over
    [&]. *)
Theorem operators_distribute (E : Enum) (x y z : value E) :
  operator_and E x (operator_or E y z)
  = operator_or E (operator_and E x y) (operator_and E x z)
  /\ operator_or E x (operator_and E y z)
     = operator_and E (operator_or E x y) (operator_or E x z)
  /\ operator_and E x (operator_xor E y z)
     = operator_xor E (operator_and E x y) (operator_and E x z).
Proof.
  repeat split; enum_ext.
Qed.

(** Absorption: [x | (x & y) == x] and [x & (x | y) == x]. *)
Theorem operators_absorb (E : Enum) (x y : value E) :
  valid x ->
  operator_or E x (operator_and E x y) = x
  /\ operator_and E x (operator_or E x y) = x.
Proof.
  intros Hx. repeat split; enum_ext.
Qed.

(** A value and its complement share no bit and together have them all;
    the complement is the exclusive or with the value that has every bit
    set. *)
Theorem complement_partitions (E : Enum) (x : value E) :
  operator_and E x (operator_not E x) = zero E
  /\ operator_or E x (operator_not E x) = all_bits_set E
  /\ operator_xor E x (operator_not E x) = all_bits_set E
  /\ operator_not E x = operator_xor E x (all_bits_set E).
Proof.
  repeat split; enum_ext.
Qed.

(** The value with every bit set is an identity of [&], absorbs under
    [|], and its complement is [zero(E)]. *)
Theorem all_bits_set_identity_and_absorbing (E : Enum) (x : value E) :
  valid x ->
  operator_and E x (all_bits_set E) = x
  /\ operator_or E x (all_bits_set E) = all_bits_set E
  /\ operator_not E (all_bits_set E) = zero E.
Proof.
  intros Hx. repeat split; enum_ext.
Qed.

(** Toggling the same bits twice restores the value, and two values
    differ in no bit exactly when they are equal. *)
Theorem xor_cancels_and_separates (E : Enum) (x y : value E) :
  valid x -> valid y ->
  operator_xor E (operator_xor E x y) y = x
  /\ (operator_xor E x y = zero E <-> x = y).
Proof.
  intros Hx Hy. split; [enum_ext | split].
  - intros Hxor. apply value_ext; [assumption .. |].
    intros i Hi.
    assert (Hbit : xorb (Z.testbit (repr x) i) (Z.testbit (repr y) i) = false).
    { rewrite <- (operator_xor_testbit E x y i Hi), Hxor. apply Z.bits_0. }
    apply xorb_eq, Hbit.
  - intros <-. enum_ext.
Qed.

(** Setting the flags [f] and testing them gives [f]; clearing them and
    testing gives nothing; and setting flags that were not set, then
    clearing them, gives the value back. *)
Theorem set_clear_test (E : Enum) (x f : value E) :
  valid x -> valid f ->
  operator_and E (operator_or E x f) f = f
  /\ operator_and E (operator_and E x (operator_not E f)) f = zero E
  /\ (operator_and E x f = zero E ->
      operator_and E (operator_or E x f) (operator_not E f) = x).
Proof.
  intros Hx Hf. split; [enum_ext | split; [enum_ext |]].
  intros Hdisj. apply value_ext; [auto with enum_valid | assumption |].
  intros i Hi. autorewrite with enum_bits.
  pose proof (operator_and_zero_bits E x f i Hdisj Hi) as Hbit.
  destruct (Z.testbit (repr x) i), (Z.testbit (repr f) i);
    cbn in *; congruence.
Qed.

(** Setting, clearing or toggling the flags [f] does not change the
    outcome of testing flags [g] that share no bit with [f]. *)
Theorem disjoint_flags_independent (E : Enum) (x f g : value E) :
  operator_and E f g = zero E ->
  operator_and E (operator_or E x f) g = operator_and E x g
  /\ operator_and E (operator_and E x (operator_not E f)) g
     = operator_and E x g
  /\ operator_and E (operator_xor E x f) g = operator_and E x g.
Proof.
  intros Hdisj.
  repeat split; (apply value_ext; [auto with enum_valid .. |]);
    intros i Hi; autorewrite with enum_bits;
    pose proof (operator_and_zero_bits E f g i Hdisj Hi) as Hbit;
    destruct (Z.testbit (repr x) i), (Z.testbit (repr f) i),
      (Z.testbit (repr g) i); cbn in *; congruence.
Qed.

(** Testing a flag whose value is [2 ^ k] reads bit [k] of the operand:
    [bool(x & f)] holds exactly when that bit of [x] is set. *)
Theorem single_bit_test (E : Enum) (x f : value E) (k : Z) :
  0 <= k < width (underlying_type E) ->
  repr f = 2 ^ k ->
  to_bool (operator_and E x f) = Z.testbit (repr x) k.
Proof.
  intros Hk Hf.
  assert (Hbits : forall i, 0 <= i < width (underlying_type E) ->
            Z.testbit (repr (operator_and E x f)) i
            = Z.testbit (repr x) i && (k =? i)).
  { intros i Hi. rewrite operator_and_testbit by exact Hi.
    rewrite Hf, Z.pow2_bits_eqb by lia. reflexivity. }
  unfold to_bool.
  destruct (Z.testbit (repr x) k) eqn:Hxk.
  - destruct (Z.eqb_spec (repr (operator_and E x f)) 0) as [Hz | Hnz];
      [| reflexivity].
    specialize (Hbits k Hk).
    rewrite Hz, Z.bits_0, Hxk, Z.eqb_refl in Hbits. discriminate.
  - assert (Hzero : operator_and E x f = zero E).
    { apply value_ext; [auto with enum_valid .. |].
      intros i Hi. rewrite (Hbits i Hi), zero_testbit.
      destruct (Z.eqb_spec k i) as [<- | _].
      - rewrite Hxk. reflexivity.
      - apply andb_false_r. }
    rewrite Hzero. reflexivity.
Qed.

(** On values of [E] the operators are the operations of two's
    complement arithmetic: [|], [&] and [^] are [Z.lor], [Z.land] and
    [Z.lxor] of the underlying values, and [~x] is [-x - 1] for a signed
    underlying type and [max - x] for an unsigned one. *)
Theorem operators_closed_form (E : Enum) (x y : value E) :
  valid x -> valid y ->
  let U := underlying_type E in
  repr (operator_or E x y) = Z.lor (repr x) (repr y)
  /\ repr (operator_and E x y) = Z.land (repr x) (repr y)
  /\ repr (operator_xor E x y) = Z.lxor (repr x) (repr y)
  /\ repr (operator_not E x)
     = if is_signed U then - repr x - 1 else max_value U - repr x.
Proof.
  intros Hx Hy. cbv zeta.
  split; [apply operator_or_repr; assumption |].
  split; [apply operator_and_repr; assumption |].
  split; [apply operator_xor_repr; assumption |].
  rewrite (operator_not_repr E x Hx).
  destruct (is_signed (underlying_type E)); [unfold Z.lnot; lia | reflexivity].
Qed.

(** A union is empty exactly when both parts are, and an intersection
    that is not empty has two parts that are not empty. *)
Theorem emptiness_of_union_and_intersection (E : Enum) (x y : value E) :
  valid x -> valid y ->
  to_bool (operator_or E x y) = to_bool x || to_bool y
  /\ (to_bool (operator_and E x y) = true ->
      to_bool x = true /\ to_bool y = true).
Proof.
  intros Hx Hy. unfold to_bool.
  rewrite (operator_or_repr E x y Hx Hy), (operator_and_repr E x y Hx Hy).
  split.
  - destruct (Z.eqb_spec (Z.lor (repr x) (repr y)) 0) as [Hz | Hnz].
    + apply Z.lor_eq_0_iff in Hz. destruct Hz as [-> ->]. reflexivity.
    + destruct (Z.eqb_spec (repr x) 0) as [Hx0 | _]; [| reflexivity].
      destruct (Z.eqb_spec (repr y) 0) as [Hy0 | _]; [| reflexivity].
      exfalso. apply Hnz. rewrite Hx0, Hy0. reflexivity.
  - intros Hand.
    destruct (Z.eqb_spec (repr x) 0) as [Hx0 | _].
    + rewrite Hx0, Z.land_0_l in Hand. discriminate.
    + destruct (Z.eqb_spec (repr y) 0) as [Hy0 | _]; [| split; reflexivity].
      rewrite Hy0, Z.land_0_r in Hand. discriminate.
Qed.

(** Flags that share no bit add up: their union has the sum of their
    underlying values, and [|] and [^] agree on them. *)
Theorem disjoint_flags_add (E : Enum) (x y : value E) :
  valid x -> valid y ->
  operator_and E x y = zero E ->
  repr (operator_or E x y) = repr x + repr y
  /\ operator_or E x y = operator_xor E x y.
Proof.
  intros Hx Hy Hdisj.
  assert (Hland : Z.land (repr x) (repr y) = 0).
  { rewrite <- (operator_and_repr E x y Hx Hy), Hdisj. reflexivity. }
  split.
  - rewrite (operator_or_repr E x y Hx Hy).
    rewrite (Z.add_nocarry_lxor _ _ Hland).
    symmetry. apply Z.lxor_lor, Hland.
  - apply value_ext; [auto with enum_valid .. |].
    intros i Hi. autorewrite with enum_bits.
    pose proof (operator_and_zero_bits E x y i Hdisj Hi) as Hbit.
    destruct (Z.testbit (repr x) i), (Z.testbit (repr y) i);
      cbn in *; congruence.
Qed.

(** ** The promoted operation and the conversion back *)

(** On values of [T] the results of the built-in [|], [&], [^], and of
    [~] when [T] is signed, are values of [T] already: converting them
    back to the enumeration changes nothing. *)
Theorem builtin_results_fit (T : IntType) (a b : Z) :
  in_range T a -> in_range T b ->
  in_range T (builtin_or T a b)
  /\ in_range T (builtin_and T a b)
  /\ in_range T (builtin_xor T a b)
  /\ (is_signed T = true -> in_range T (builtin_not T a)).
Proof.
  intros Ha Hb.
  rewrite (builtin_or_exact T a b Ha Hb), (builtin_and_exact T a b Ha Hb),
    (builtin_xor_exact T a b Ha Hb).
  split; [apply lor_in_range; assumption |].
  split; [apply land_in_range; assumption |].
  split; [apply lxor_in_range; assumption |].
  intros Hs.
  rewrite (builtin_not_exact T a Ha).
  - apply lnot_in_range; assumption.
  - unfold promote.
    destruct (width T <? width int_type); [reflexivity | exact Hs].
Qed.

(** The complement of an unsigned operand narrower than [int] is taken
    on the promoted, signed operand: the built-in result is the negative
    number [-a - 1], which is no value of [T], and the conversion back to
    the enumeration turns it into [max - a]. *)
Theorem builtin_not_narrow_unsigned (T : IntType) (a : Z) :
  is_signed T = false -> width T < width int_type -> in_range T a ->
  builtin_not T a = - a - 1
  /\ ~ in_range T (builtin_not T a)
  /\ convert T (builtin_not T a) = max_value T - a.
Proof.
  intros Hs Hw Ha.
  assert (Hp : promote T = int_type).
  { unfold promote. apply Z.ltb_lt in Hw. rewrite Hw. reflexivity. }
  assert (Hnot : builtin_not T a = - a - 1).
  { rewrite (builtin_not_exact T a Ha) by (rewrite Hp; reflexivity).
    unfold Z.lnot. lia. }
  pose proof (pow2_width_pos T) as Hpos.
  rewrite Hnot.
  unfold in_range, min_value, max_value, convert in *.
  rewrite Hs in *.
  split; [reflexivity | split; [lia |]].
  symmetry. apply Z.mod_unique with (q := -1); lia.
Qed.

(** ** Compound assignments in sequence *)

(** A compound assignment applied to the reference an earlier one
    returned updates the same variable: [(a |= b) |= c] leaves in [a] the
    union of all three, whatever the order of [b] and [c], and likewise
    for [&=] and [^=]. *)
Theorem compound_assignments_chain
  (E : Enum) (st : store E) (a : ref) (b c : value E) :
  let chain f := let '(st1, r) := f st a b in fst (f st1 r c) in
  let chain' f := let '(st1, r) := f st a c in fst (f st1 r b) in
  (chain (operator_or_assign E) a
     = operator_or E (st a) (operator_or E b c)
   /\ chain (operator_and_assign E) a
      = operator_and E (st a) (operator_and E b c)
   /\ chain (operator_xor_assign E) a
      = operator_xor E (st a) (operator_xor E b c))
  /\ (forall x : ref,
        chain (operator_or_assign E) x = chain' (operator_or_assign E) x
        /\ chain (operator_and_assign E) x = chain' (operator_and_assign E) x
        /\ chain (operator_xor_assign E) x = chain' (operator_xor_assign E) x).
Proof.
  cbv zeta.
  unfold operator_or_assign, operator_and_assign, operator_xor_assign, assign.
  cbn [fst]. rewrite !String.eqb_refl.
  fold (operator_or E (st a) b) (operator_and E (st a) b)
    (operator_xor E (st a) b) (operator_or E (st a) c)
    (operator_and E (st a) c) (operator_xor E (st a) c).
  fold (operator_or E (operator_or E (st a) b) c)
    (operator_and E (operator_and E (st a) b) c)
    (operator_xor E (operator_xor E (st a) b) c)
    (operator_or E (operator_or E (st a) c) b)
    (operator_and E (operator_and E (st a) c) b)
    (operator_xor E (operator_xor E (st a) c) b).
  split.
  - repeat split; enum_ext.
  - intros x. destruct (String.eqb x a); [| repeat split].
    repeat split; enum_ext.
Qed.

(** A compound assignment of a variable to itself: the right operand is
    the copy made before the update, so [a ^= a] leaves [zero(E)] in [a]
    and [a |= a], [a &= a] leave [a] as it was. *)
Theorem compound_assignment_to_itself (E : Enum) (st : store E) (a : ref) :
  valid (st a) ->
  fst (call_assign E (operator_xor_assign E) st a a) a = zero E
  /\ fst (call_assign E (operator_or_assign E) st a a) a = st a
  /\ fst (call_assign E (operator_and_assign E) st a a) a = st a.
Proof.
  intros Ha.
  unfold call_assign, operator_or_assign, operator_and_assign,
    operator_xor_assign, assign.
  cbn [fst]. rewrite String.eqb_refl.
  fold (operator_or E (st a) (st a)) (operator_and E (st a) (st a))
    (operator_xor E (st a) (st a)).
  repeat split; enum_ext.
Qed.

(** A store whose variables all hold values of [E] still does after a
    compound assignment, whatever number the right operand carries. *)
Theorem compound_assignments_keep_store_valid
  (E : Enum) (st : store E) (a : ref) (b : value E) :
  store_valid st ->
  store_valid (fst (operator_or_assign E st a b))
  /\ store_valid (fst (operator_and_assign E st a b))
  /\ store_valid (fst (operator_xor_assign E st a b)).
Proof.
  intros Hst.
  unfold operator_or_assign, operator_and_assign, operator_xor_assign, assign.
  cbn [fst].
  split; [| split]; intros x; destruct (String.eqb x a);
    (apply static_cast_E_valid || apply Hst).
Qed.

End Target.

(** ** The trait *)

Lemma find_specialization_macros (names : list type_name) (E : type_name) :
  find_specialization (map ENABLE_BITWISE_OPERATORS names) E
  = if in_dec string_dec E names then Some (mkTrait true) else None.
Proof.
  induction names as [| name names IH]; cbn [map find_specialization].
  - reflexivity.
  - cbn [ENABLE_BITWISE_OPERATORS]. rewrite IH.
    destruct (String.eqb_spec name E) as [Heq | Hneq].
    + destruct (in_dec string_dec E (name :: names)) as [_ | Hnot];
        [reflexivity | exfalso; apply Hnot; left; exact Heq].
    + destruct (in_dec string_dec E names) as [Hin | Hnot];
        destruct (in_dec string_dec E (name :: names)) as [Hin' | Hnot'];
        try reflexivity.
      * exfalso. apply Hnot'. right. exact Hin.
      * exfalso. destruct Hin' as [Heq | Hin']; [exact (Hneq Heq) | exact (Hnot Hin')].
Qed.


Lemma operators_complete (op : operator) : In op operators.
Proof. destruct op; cbn; tauto. Qed.

(** What the header's templates offer, whatever the kind of the
    enumeration: nothing without a specialization for [E], and with the
    macro each of the seven operators, returning [E], or [E&] for the
    compound assignments. *)
Lemma templates_without_specialization (tu : translation_unit) (E : type_name) :
  find_specialization tu E = None ->
  enable (enable_bitwise_operators tu E) = false
  /\ forall op : operator, return_type tu E op = None.
Proof.
  intros Hnone.
  assert (Hen : enable (enable_bitwise_operators tu E) = false).
  { unfold enable_bitwise_operators. rewrite Hnone. reflexivity. }
  split; [exact Hen |].
  intros op. unfold return_type. rewrite Hen. destruct op; reflexivity.
Qed.


Lemma templates_without_macro (names : list type_name) (E : type_name) (op : operator) :
  ~ In E names ->
  enable (enable_bitwise_operators (map ENABLE_BITWISE_OPERATORS names) E) = false
  /\ return_type (map ENABLE_BITWISE_OPERATORS names) E op = None.
Proof.
  intros Hnot.
  assert (Hnone : find_specialization (map ENABLE_BITWISE_OPERATORS names) E = None).
  { rewrite find_specialization_macros.
    destruct (in_dec string_dec E names) as [Hin | _];
      [contradiction | reflexivity]. }
  destruct (templates_without_specialization _ E Hnone) as [Hen Hret].
  split; [exact Hen | apply Hret].
Qed.

(** A translation unit that specializes the trait twice for a type is
    rejected, whatever the expression. *)
Lemma translation_duplicate_enable
  (tu : translation_unit) (k : enum_kind) (E : type_name) (op : operator) :
  declared_once tu = false ->
  translation tu k E op = rejected duplicate_enable.
Proof. intros Hdup. unfold translation. rewrite Hdup. reflexivity. Qed.

(** An unscoped enumeration that is not enabled: the built-in [|], [&],
    [^], [~] are used, and the compound assignments are rejected. *)
Lemma translation_unscoped_not_enabled
  (names : list type_name) (E : type_name) (op : operator) :
  declared_once (map ENABLE_BITWISE_OPERATORS names) = true ->
  ~ In E names ->
  translation (map ENABLE_BITWISE_OPERATORS names) unscoped E op
  = match op with
    | op_or | op_and | op_xor | op_not => resolved_builtin
    | op_or_assign | op_and_assign | op_xor_assign => rejected not_enabled
    end.
Proof.
  intros Honce Hnot.
  destruct (templates_without_macro names E op Hnot) as [_ Hret].
  unfold translation, resolve. rewrite Honce, Hret.
  destruct op; reflexivity.
Qed.



Lemma find_specialization_skip
  (tu1 tu2 : translation_unit) (F : type_name) (body : trait) (E : type_name) :
  F <> E ->
  find_specialization (tu1 ++ (F, body) :: tu2)%list E
  = find_specialization (tu1 ++ tu2)%list E.
Proof.
  intros Hneq.
  induction tu1 as [| [name body1] tu1 IH]; cbn [app find_specialization].
  - apply String.eqb_neq in Hneq. rewrite Hneq. reflexivity.
  - rewrite IH. reflexivity.
Qed.

(** The seven operators are gated together, by the member [enable] of the
    trait at [E], and a specialization for another type, wherever it is
    declared, leaves the answer for [E] as it was. *)
Theorem gating_is_uniform_and_per_enumeration
  (tu1 tu2 : translation_unit) (F : type_name) (body : trait)
  (E : type_name) (op op' : operator) :
  F <> E ->
  operator_available (tu1 ++ (F, body) :: tu2)%list E op
  = operator_available (tu1 ++ tu2)%list E op'
  /\ operator_available (tu1 ++ tu2)%list E op
     = enable (enable_bitwise_operators (tu1 ++ tu2)%list E).
Proof.
  intros Hneq.
  unfold operator_available, return_type, enable_bitwise_operators.
  rewrite (find_specialization_skip tu1 tu2 F body E Hneq).
  destruct (find_specialization (tu1 ++ tu2)%list E) as [[[|]] |];
    destruct op, op'; split; reflexivity.
Qed.

(** ** The width of [int] *)

(** The promotion leaves no trace: whatever the width of [int], each
    operator gives the conversion to the underlying type of the operation
    of [Z] on the operands, so two targets agree on every result. *)
Theorem operators_independent_of_int_width
  (W W' : positive) (E : Enum) (x y : value E) :
  (operator_or W E x y = static_cast_E E (Z.lor (repr x) (repr y))
   /\ operator_and W E x y = static_cast_E E (Z.land (repr x) (repr y))
   /\ operator_xor W E x y = static_cast_E E (Z.lxor (repr x) (repr y))
   /\ operator_not W E x = static_cast_E E (Z.lnot (repr x)))
  /\ (operator_or W E x y = operator_or W' E x y
      /\ operator_and W E x y = operator_and W' E x y
      /\ operator_xor W E x y = operator_xor W' E x y
      /\ operator_not W E x = operator_not W' E x).
Proof.
  assert (Hor : forall V, operator_or V E x y
                          = static_cast_E E (Z.lor (repr x) (repr y))).
  { intros V. unfold operator_or, static_cast_E, static_cast_underlying.
    f_equal. apply convert_ext. intros i Hi.
    rewrite builtin_or_testbit, Z.lor_spec by exact Hi. reflexivity. }
  assert (Hand : forall V, operator_and V E x y
                           = static_cast_E E (Z.land (repr x) (repr y))).
  { intros V. unfold operator_and, static_cast_E, static_cast_underlying.
    f_equal. apply convert_ext. intros i Hi.
    rewrite builtin_and_testbit, Z.land_spec by exact Hi. reflexivity. }
  assert (Hxor : forall V, operator_xor V E x y
                           = static_cast_E E (Z.lxor (repr x) (repr y))).
  { intros V. unfold operator_xor, static_cast_E, static_cast_underlying.
    f_equal. apply convert_ext. intros i Hi.
    rewrite builtin_xor_testbit, Z.lxor_spec by exact Hi. reflexivity. }
  assert (Hnot : forall V, operator_not V E x
                           = static_cast_E E (Z.lnot (repr x))).
  { intros V. unfold operator_not, static_cast_E, static_cast_underlying.
    f_equal. apply convert_ext. intros i Hi.
    rewrite builtin_not_testbit by exact Hi.
    rewrite Z.lnot_spec by lia. reflexivity. }
  split.
  - auto.
  - rewrite (Hor W), (Hor W'), (Hand W), (Hand W'), (Hxor W), (Hxor W'),
      (Hnot W), (Hnot W'). auto.
Qed.

(** ** The example program *)

(** The example is compiled for a target whose [int] has 32 bits. *)

(** C8. Starting from [none], after [a |= top; a |= left;] the value
    [a & top] is non-zero, [a & bottom] is zero, [a & left] is non-zero and
    [a & right] is zero. *)
Theorem main_alignment_scenario :
  let a := main_align 32 in
  let and_ := operator_and 32 (Alignment 32) in
  to_bool (and_ a (top 32)) = true
  /\ to_bool (and_ a (bottom 32)) = false
  /\ to_bool (and_ a (left 32)) = true
  /\ to_bool (and_ a (right 32)) = false.
Proof. vm_compute. repeat split. Qed.

Lemma main_output :
  main 32 = [String.append "Aligning top ..." endl;
             String.append "Aligning left ..." endl].
Proof. vm_compute. reflexivity. Qed.

Lemma main_operators_available :
  forall op : operator, operator_available main_tu "Widget::Alignment" op = true.
Proof. intros op. destruct op; reflexivity. Qed.

(** The other scenarios of the example enumeration. *)

Example alignment_all_flags :
  let or_ := operator_or 32 (Alignment 32) in
  repr (or_ (or_ (or_ (top 32) (bottom 32)) (left 32)) (right 32)) = 15.
Proof. reflexivity. Qed.

Example alignment_symmetric_difference :
  let or_ := operator_or 32 (Alignment 32) in
  operator_xor 32 (Alignment 32)
    (or_ (top 32) (bottom 32)) (or_ (bottom 32) (left 32))
  = or_ (top 32) (left 32).
Proof. reflexivity. Qed.

Example alignment_complement_of_none :
  repr (operator_not 32 (Alignment 32) (none 32)) = -1.
Proof. reflexivity. Qed.

Example flags8_complement_of_zero :
  builtin_not 32 (underlying_type Flags8) 0 = -1
  /\ repr (operator_not 32 Flags8 (zero Flags8)) = 255.
Proof. split; reflexivity. Qed.

Example flags8_complement_twice :
  operator_not 32 Flags8 (operator_not 32 Flags8 (mkValue Flags8 5))
  = mkValue Flags8 5.
Proof. reflexivity. Qed.

(** ** Instances *)

Lemma idempotence_and_self_inverse_top :
  valid (top 32)
  /\ operator_or 32 (Alignment 32) (top 32) (top 32) = top 32
  /\ operator_and 32 (Alignment 32) (top 32) (top 32) = top 32
  /\ operator_xor 32 (Alignment 32) (top 32) (top 32) = zero (Alignment 32).
Proof.
  split.
  - unfold valid, in_range. cbn. lia.
  - apply (idempotence_and_self_inverse 32 (Alignment 32) (top 32)).
    unfold valid, in_range. cbn. lia.
Defined.

Lemma complement_involution_de_morgan_top_left :
  valid (top 32)
  /\ operator_not 32 (Alignment 32) (operator_not 32 (Alignment 32) (top 32))
  = top 32
  /\ operator_not 32 (Alignment 32) (operator_or 32 (Alignment 32) (top 32) (left 32))
     = operator_and 32 (Alignment 32)
         (operator_not 32 (Alignment 32) (top 32))
         (operator_not 32 (Alignment 32) (left 32))
  /\ operator_not 32 (Alignment 32) (operator_and 32 (Alignment 32) (top 32) (left 32))
     = operator_or 32 (Alignment 32)
         (operator_not 32 (Alignment 32) (top 32))
         (operator_not 32 (Alignment 32) (left 32)).
Proof.
  split.
  - unfold valid, in_range. cbn. lia.
  - apply (complement_involution_de_morgan 32 (Alignment 32) (top 32) (left 32)).
    unfold valid, in_range. cbn. lia.
Defined.

Lemma zero_identity_and_absorbing_top :
  valid (top 32)
  /\ operator_or 32 (Alignment 32) (top 32) (zero (Alignment 32)) = top 32
  /\ operator_xor 32 (Alignment 32) (top 32) (zero (Alignment 32)) = top 32
  /\ operator_and 32 (Alignment 32) (top 32) (zero (Alignment 32))
     = zero (Alignment 32).
Proof.
  split.
  - unfold valid, in_range. cbn. lia.
  - apply (zero_identity_and_absorbing 32 (Alignment 32) (top 32)).
    unfold valid, in_range. cbn. lia.
Defined.


Lemma operators_frame_in_main :
  let st : store (Alignment 32) :=
    assign (assign (fun _ => none 32) "a" (top 32)) "b" (left 32) in
  "b" <> "a"
  /\ fst (call_assign (Alignment 32) (operator_xor_assign 32 (Alignment 32))
            st "a" "b") "b" = left 32.
Proof.
  cbv zeta.
  assert (Hneq : "b" <> "a") by discriminate.
  split; [exact Hneq |].
  destruct (operators_frame 32 (Alignment 32)
              (assign (assign (fun _ => none 32) "a" (top 32)) "b" (left 32))
              "a" "b") as (_ & Hframe).
  destruct (Hframe "b" Hneq) as (_ & _ & Hxor).
  rewrite Hxor. reflexivity.
Defined.

(** Instances of the further laws, in the example enumeration and in
    [Flags8]. *)

Ltac concrete_valid := unfold valid, in_range; cbn; lia.

Lemma operators_absorb_top_left :
  valid (top 32)
  /\ operator_or 32 (Alignment 32) (top 32)
       (operator_and 32 (Alignment 32) (top 32) (left 32)) = top 32.
Proof.
  split; [concrete_valid |].
  apply (operators_absorb 32 (Alignment 32) (top 32) (left 32)).
  concrete_valid.
Defined.

Lemma all_bits_set_identity_top :
  valid (top 32)
  /\ operator_and 32 (Alignment 32) (top 32) (all_bits_set (Alignment 32))
     = top 32.
Proof.
  split; [concrete_valid |].
  apply (all_bits_set_identity_and_absorbing 32 (Alignment 32) (top 32)).
  concrete_valid.
Defined.

Lemma xor_cancels_top_left :
  valid (top 32) /\ valid (left 32)
  /\ operator_xor 32 (Alignment 32)
       (operator_xor 32 (Alignment 32) (top 32) (left 32)) (left 32)
     = top 32.
Proof.
  split; [concrete_valid | split; [concrete_valid |]].
  apply (xor_cancels_and_separates 32 (Alignment 32) (top 32) (left 32));
    concrete_valid.
Defined.

Lemma set_clear_test_top_left :
  valid (top 32) /\ valid (left 32)
  /\ operator_and 32 (Alignment 32) (top 32) (left 32) = zero (Alignment 32)
  /\ operator_and 32 (Alignment 32)
       (operator_or 32 (Alignment 32) (top 32) (left 32))
       (operator_not 32 (Alignment 32) (left 32))
     = top 32.
Proof.
  split; [concrete_valid | split; [concrete_valid | split; [reflexivity |]]].
  destruct (set_clear_test 32 (Alignment 32) (top 32) (left 32))
    as (_ & _ & Hclear); [concrete_valid .. |].
  apply Hclear. reflexivity.
Defined.

Lemma disjoint_flags_independent_top_left_bottom :
  operator_and 32 (Alignment 32) (left 32) (bottom 32) = zero (Alignment 32)
  /\ operator_and 32 (Alignment 32)
       (operator_or 32 (Alignment 32) (top 32) (left 32)) (bottom 32)
     = operator_and 32 (Alignment 32) (top 32) (bottom 32).
Proof.
  split; [reflexivity |].
  apply (disjoint_flags_independent 32 (Alignment 32)
           (top 32) (left 32) (bottom 32)).
  reflexivity.
Defined.

Lemma single_bit_test_left :
  0 <= 2 < width (underlying_type (Alignment 32))
  /\ repr (left 32) = 2 ^ 2
  /\ to_bool (operator_and 32 (Alignment 32) (main_align 32) (left 32))
     = Z.testbit (repr (main_align 32)) 2.
Proof.
  split; [unfold width; cbn; lia | split; [reflexivity |]].
  apply (single_bit_test 32 (Alignment 32) (main_align 32) (left 32) 2).
  - unfold width. cbn. lia.
  - reflexivity.
Defined.

Lemma operators_closed_form_flags8 :
  valid (mkValue Flags8 5) /\ valid (mkValue Flags8 3)
  /\ repr (operator_not 32 Flags8 (mkValue Flags8 5)) = 255 - 5.
Proof.
  split; [concrete_valid | split; [concrete_valid |]].
  destruct (operators_closed_form 32 Flags8 (mkValue Flags8 5) (mkValue Flags8 3))
    as (_ & _ & _ & Hnot); [concrete_valid .. |].
  exact Hnot.
Defined.

Lemma emptiness_of_union_top_none :
  valid (top 32) /\ valid (none 32)
  /\ to_bool (operator_or 32 (Alignment 32) (top 32) (none 32))
     = to_bool (top 32) || to_bool (none 32).
Proof.
  split; [concrete_valid | split; [concrete_valid |]].
  destruct (emptiness_of_union_and_intersection 32 (Alignment 32)
              (top 32) (none 32)) as (Hunion & _); [concrete_valid .. |].
  exact Hunion.
Defined.

Lemma disjoint_flags_add_top_left :
  valid (top 32) /\ valid (left 32)
  /\ operator_and 32 (Alignment 32) (top 32) (left 32) = zero (Alignment 32)
  /\ repr (operator_or 32 (Alignment 32) (top 32) (left 32)) = 1 + 4.
Proof.
  split; [concrete_valid | split; [concrete_valid | split; [reflexivity |]]].
  destruct (disjoint_flags_add 32 (Alignment 32) (top 32) (left 32))
    as (Hsum & _); [concrete_valid .. | reflexivity |].
  exact Hsum.
Defined.

Lemma builtin_results_fit_int8 :
  in_range (mkIntType 8 true) (-128) /\ in_range (mkIntType 8 true) 127
  /\ in_range (mkIntType 8 true) (builtin_or 32 (mkIntType 8 true) (-128) 127)
  /\ in_range (mkIntType 8 true) (builtin_not 32 (mkIntType 8 true) (-128)).
Proof.
  assert (Hlo : in_range (mkIntType 8 true) (-128))
    by (unfold in_range; cbn; lia).
  assert (Hhi : in_range (mkIntType 8 true) 127)
    by (unfold in_range; cbn; lia).
  split; [exact Hlo | split; [exact Hhi |]].
  destruct (builtin_results_fit 32 (mkIntType 8 true) (-128) 127 Hlo Hhi)
    as (Hor & _ & _ & Hnot).
  split; [exact Hor | apply Hnot; reflexivity].
Defined.

Lemma builtin_not_narrow_unsigned_flags8 :
  is_signed (underlying_type Flags8) = false
  /\ width (underlying_type Flags8) < width (int_type 32)
  /\ in_range (underlying_type Flags8) 5
  /\ builtin_not 32 (underlying_type Flags8) 5 = -6
  /\ convert (underlying_type Flags8) (builtin_not 32 (underlying_type Flags8) 5)
     = 250.
Proof.
  assert (Hw : width (underlying_type Flags8) < width (int_type 32))
    by (unfold width; cbn; lia).
  assert (Hr : in_range (underlying_type Flags8) 5)
    by (unfold in_range; cbn; lia).
  split; [reflexivity | split; [exact Hw | split; [exact Hr |]]].
  destruct (builtin_not_narrow_unsigned 32 (underlying_type Flags8) 5
              eq_refl Hw Hr) as (Hnot & _ & Hback).
  split; [exact Hnot | exact Hback].
Defined.

Lemma compound_assignment_to_itself_top :
  let st : store (Alignment 32) := assign (fun _ => none 32) "a" (top 32) in
  valid (st "a")
  /\ fst (call_assign (Alignment 32) (operator_xor_assign 32 (Alignment 32))
            st "a" "a") "a" = zero (Alignment 32).
Proof.
  cbv zeta. split; [concrete_valid |].
  apply (compound_assignment_to_itself 32 (Alignment 32)
           (assign (fun _ => none 32) "a" (top 32)) "a").
  concrete_valid.
Defined.

Lemma compound_assignments_keep_store_valid_main :
  let st : store (Alignment 32) := fun _ => none 32 in
  store_valid st
  /\ store_valid (fst (operator_or_assign 32 (Alignment 32) st "align" (top 32))).
Proof.
  cbv zeta.
  assert (Hst : store_valid (fun _ : ref => none 32))
    by (intros x; concrete_valid).
  split; [exact Hst |].
  apply (compound_assignments_keep_store_valid 32 (Alignment 32)
           (fun _ => none 32) "align" (top 32) Hst).
Defined.

Lemma gating_in_main :
  "Widget::Color" <> "Widget::Alignment"
  /\ operator_available
       (ENABLE_BITWISE_OPERATORS "Widget::Color" :: main_tu)
       "Widget::Alignment" op_not
     = operator_available main_tu "Widget::Alignment" op_xor_assign.
Proof.
  assert (Hneq : "Widget::Color" <> "Widget::Alignment") by discriminate.
  split; [exact Hneq |].
  apply (gating_is_uniform_and_per_enumeration [] main_tu
           "Widget::Color" (mkTrait true) "Widget::Alignment"
           op_not op_xor_assign Hneq).
Defined.
